(** * gopinyin: the flashcard state machine of [main.go]

    A shallow embedding of [model.Update], [initialModel], [fetchExample],
    [getAPIKey], [initEnv] and [main], and of the seed deck of
    [words/words.go], followed by the properties of the interaction state
    machine (navigation, detail toggle, add-card form, merge of fetched
    examples).

    Conventions.
    - Go's [int] is a 64-bit two's-complement integer: it is a [Z] here and
      every [+] and [-] of the source goes through [int_add] / [int_sub],
      which wrap.  [%] is Go's truncated remainder ([Z.rem]) and panics on a
      zero divisor.
    - A run-time panic (index out of range, division by zero) is [None].
    - A slice is a [list]; [s[i]] and [s[i] = x] are stdpp's lookup and
      insert behind an explicit bounds check, because Go panics out of range.
      [Update] has a value receiver, and bubbletea replaces its model by the
      one [Update] returns, so the backing arrays shared between the old and
      the new model are never read through the old one: each call gets the
      state the previous call returned.
    - A Go [string] is its UTF-8 byte sequence, a [string] here.
    - An [error] is the text its [Error()] method returns; a nil-able error
      is an [option]. *)

From Stdlib Require Import ZArith String.
From stdpp Require Import base option list strings gmap.

Local Open Scope string_scope.
Local Open Scope Z_scope.

(** ** Go integers *)

Definition int_wrap (z : Z) : Z := (z + 2 ^ 63) mod 2 ^ 64 - 2 ^ 63.
Definition int_add (a b : Z) : Z := int_wrap (a + b).
Definition int_sub (a b : Z) : Z := int_wrap (a - b).

(** [a % b]: the remainder has the sign of [a]; a zero [b] panics. *)
Definition int_rem (a b : Z) : option Z :=
  if b =? 0 then None else Some (Z.rem a b).

(** [len(s)] *)
Definition len {A} (s : list A) : Z := Z.of_nat (length s).

(** [s[i]], panicking out of range. *)
Definition index {A} (s : list A) (i : Z) : option A :=
  if (0 <=? i) && (i <? len s) then s !! Z.to_nat i else None.

(** ** words/words.go *)

Record Word := {
  Pinyin : string;
  Chinese : string;
  Definition_ : string;
  Example_ : string;
}.

Definition ExampleWords : list Word := [
  {| Pinyin := "nǐ hǎo"; Chinese := "你好"; Definition_ := "Hello";
     Example_ := "" |};
  {| Pinyin := "xiè xiè"; Chinese := "谢谢"; Definition_ := "Thank you";
     Example_ := "" |};
  {| Pinyin := "zǎo"; Chinese := "早"; Definition_ := "Morning";
     Example_ := "Zǎo, good morning!" |};
  {| Pinyin := "péngyou"; Chinese := "朋友"; Definition_ := "Friend";
     Example_ := "Wǒ de péngyou hěn hǎo." |};
  {| Pinyin := "chī fàn"; Chinese := "吃饭"; Definition_ := "Eat meal";
     Example_ := "Wǒmen qù chī fàn." |};
  {| Pinyin := "hǎo"; Chinese := "好"; Definition_ := "Good";
     Example_ := "Hěn hǎo, that's good!" |};
  {| Pinyin := "shuǐ"; Chinese := "水"; Definition_ := "Water";
     Example_ := "Wǒ yào yī bēi shuǐ." |};
  {| Pinyin := "ài"; Chinese := "爱"; Definition_ := "Love";
     Example_ := "Wǒ ài nǐ means I love you." |};
  {| Pinyin := "rén"; Chinese := "人"; Definition_ := "Person";
     Example_ := "Měi gè rén dōu bù tóng." |};
  {| Pinyin := "jiā"; Chinese := "家"; Definition_ := "Home/Family";
     Example_ := "Wǒ de jiā zài Běijīng." |}
].

(** [m.words[i].Example = text]: the other three fields are copied. *)
Definition with_Example (text : string) (w : Word) : Word :=
  {| Pinyin := Pinyin w; Chinese := Chinese w; Definition_ := Definition_ w;
     Example_ := text |}.

Definition set_Example (ws : list Word) (i : Z) (text : string)
  : option (list Word) :=
  w ← index ws i;
  Some (<[Z.to_nat i := with_Example text w]> ws).

(** ** Messages (bubbletea's [tea.Msg] and the program's [ExampleMsg]) *)

(** The key types [Update] distinguishes, and a few it does not.  Only a
    [KeyRunes] message carries text. *)
Inductive KeyType :=
  | KeyRunes (runes : string)
  | KeySpace | KeyEnter | KeyTab | KeyShiftTab | KeyEsc | KeyCtrlC
  | KeyLeft | KeyRight | KeyUp | KeyDown | KeyBackspace | KeyDelete.

Record KeyMsg := { Type_ : KeyType; Alt : bool }.

(** [tea.KeyMsg.String()]: the typed text for runes, the key's name
    otherwise, after [alt+] when Alt is held. *)
Definition KeyType_String (t : KeyType) : string :=
  match t with
  | KeyRunes runes => runes
  | KeySpace => " "
  | KeyEnter => "enter"
  | KeyTab => "tab"
  | KeyShiftTab => "shift+tab"
  | KeyEsc => "esc"
  | KeyCtrlC => "ctrl+c"
  | KeyLeft => "left"
  | KeyRight => "right"
  | KeyUp => "up"
  | KeyDown => "down"
  | KeyBackspace => "backspace"
  | KeyDelete => "delete"
  end.

Definition KeyMsg_String (k : KeyMsg) : string :=
  if Alt k then "alt+" +:+ KeyType_String (Type_ k)
  else KeyType_String (Type_ k).

Definition error := string.

(** [ExampleMsg] carries the example sentence fetched from OpenAI. *)
Record ExampleMsg := {
  Index : Z;
  Example : string;
  Error : option error;
}.

(** [OtherMsg] stands for every message that is neither a key nor an
    [ExampleMsg] (cursor blink ticks, window sizes). *)
Inductive Msg :=
  | KeyMsgM (k : KeyMsg)
  | ExampleMsgM (e : ExampleMsg)
  | OtherMsg.

(** ** The text-input widget (bubbles' [textinput.Model])

    The widget is a dependency of the program, used through [New],
    [Value], [Focus], [Blur], [Reset] and [Update] and the three settings
    [initialModel] writes.  It is an interface here, with the facts about it
    that the program's behaviour rests on: resetting empties the buffer,
    moving the focus does not edit it, and the Enter key types nothing. *)
Module textinput.
Class Widget := {
  Model : Type;
  Cmd : Type;
  New : Model;
  Configure (placeholder prompt : string) (charLimit : Z) : Model -> Model;
  Value : Model -> string;
  Focus : Model -> Model;
  Blur : Model -> Model;
  Reset : Model -> Model;
  Update : Model -> Msg -> Model * Cmd;
  Value_Focus t : Value (Focus t) = Value t;
  Value_Blur t : Value (Blur t) = Value t;
  Value_Reset t : Value (Reset t) = "";
  Value_Update_Enter t alt :
    Value (Update t (KeyMsgM {| Type_ := KeyEnter; Alt := alt |})).1
    = Value t;
}.
End textinput.

(** ** main.go: the model and its update function *)

Section Program.
Context {W : textinput.Widget}.
Import textinput.

(** [tea.Cmd], as far as [Update] returns one: nil, [tea.Quit], the
    closure [fetchExample] builds for a word and an index, and the batch of
    the four inputs' own commands. *)
Inductive Cmd :=
  | CmdNil
  | CmdQuit
  | CmdFetch (word : Word) (index : Z)
  | CmdBatch (cmds : list textinput.Cmd).

(** The application state. *)
Record model := {
  words : list Word;
  currentIndex : Z;
  showDetails : bool;
  addingNewCard : bool;
  inputs : list textinput.Model;
  focusIndex : Z;
  loadingExample : bool;
}.

Definition set_words ws (m : model) : model :=
  {| words := ws; currentIndex := currentIndex m;
     showDetails := showDetails m; addingNewCard := addingNewCard m;
     inputs := inputs m; focusIndex := focusIndex m;
     loadingExample := loadingExample m |}.
Definition set_currentIndex i (m : model) : model :=
  {| words := words m; currentIndex := i;
     showDetails := showDetails m; addingNewCard := addingNewCard m;
     inputs := inputs m; focusIndex := focusIndex m;
     loadingExample := loadingExample m |}.
Definition set_showDetails b (m : model) : model :=
  {| words := words m; currentIndex := currentIndex m;
     showDetails := b; addingNewCard := addingNewCard m;
     inputs := inputs m; focusIndex := focusIndex m;
     loadingExample := loadingExample m |}.
Definition set_addingNewCard b (m : model) : model :=
  {| words := words m; currentIndex := currentIndex m;
     showDetails := showDetails m; addingNewCard := b;
     inputs := inputs m; focusIndex := focusIndex m;
     loadingExample := loadingExample m |}.
Definition set_inputs ins (m : model) : model :=
  {| words := words m; currentIndex := currentIndex m;
     showDetails := showDetails m; addingNewCard := addingNewCard m;
     inputs := ins; focusIndex := focusIndex m;
     loadingExample := loadingExample m |}.
Definition set_focusIndex i (m : model) : model :=
  {| words := words m; currentIndex := currentIndex m;
     showDetails := showDetails m; addingNewCard := addingNewCard m;
     inputs := inputs m; focusIndex := i;
     loadingExample := loadingExample m |}.
Definition set_loadingExample b (m : model) : model :=
  {| words := words m; currentIndex := currentIndex m;
     showDetails := showDetails m; addingNewCard := addingNewCard m;
     inputs := inputs m; focusIndex := focusIndex m;
     loadingExample := b |}.

(** The four inputs [initialModel] creates: each is configured and given
    the focus (the [switch] overwrites the placeholder set just before). *)
Definition placeholders : list string := [
  "Chinese Characters (e.g. 你好)";
  "Pinyin (e.g. ni hao)";
  "Definition (e.g. Hello)";
  "Example Sentence (optional)"
].

Definition initialModel : model :=
  {| words := ExampleWords;
     currentIndex := 0;
     showDetails := false;
     addingNewCard := false;
     inputs := map (fun p => Focus (Configure p "» " 50 New)) placeholders;
     focusIndex := 0;
     loadingExample := false |}.

(** [for i ... { if i == j { m.inputs[i].Focus() } else { m.inputs[i].Blur() } }] *)
Definition focus_only (j : Z) (ins : list textinput.Model)
  : list textinput.Model :=
  imap (fun i t => if Z.of_nat i =? j then Focus t else Blur t) ins.

(** The test of the save branch,
    [m.inputs[0].Value() != "" && m.inputs[1].Value() != "" && m.inputs[2].Value() != ""],
    left to right with Go's short-circuit: an input is read only when the
    ones before it are non-empty. *)
Definition required_filled (ins : list textinput.Model) : option bool :=
  v0 ← Value <$> index ins 0;
  if bool_decide (v0 = "") then Some false else
  v1 ← Value <$> index ins 1;
  if bool_decide (v1 = "") then Some false else
  v2 ← Value <$> index ins 2;
  Some (negb (bool_decide (v2 = ""))).

(** The card the save branch builds: the three required buffers and an
    empty example. *)
Definition newWord (ins : list textinput.Model) : option Word :=
  c ← Value <$> index ins 0;
  p ← Value <$> index ins 1;
  d ← Value <$> index ins 2;
  Some {| Chinese := c; Pinyin := p; Definition_ := d; Example_ := "" |}.

(** The tail of the adding branch: every input receives the message, and
    the inputs' commands are batched. *)
Definition route_to_inputs (msg : Msg) (m : model) : model * Cmd :=
  (set_inputs (map (fun t => (textinput.Update t msg).1) (inputs m)) m,
   CmdBatch (map (fun t => (textinput.Update t msg).2) (inputs m))).

(** [if m.addingNewCard { switch msg := msg.(type) { case tea.KeyMsg: ... } }] *)
Definition Update_adding (m : model) (k : KeyMsg) : option (model * Cmd) :=
  match Type_ k with
  | KeyCtrlC | KeyEsc =>
      Some (set_addingNewCard false m, CmdNil)
  | KeyTab | KeyShiftTab =>
      let f := match Type_ k with
               | KeyTab => int_add (focusIndex m) 1
               | _ => int_sub (focusIndex m) 1
               end in
      let f := if f >? int_sub (len (inputs m)) 1 then 0
               else if f <? 0 then int_sub (len (inputs m)) 1
               else f in
      let m := set_focusIndex f m in
      let m := set_inputs (focus_only f (inputs m)) m in
      Some (route_to_inputs (KeyMsgM k) m)
  | KeyEnter =>
      filled ← required_filled (inputs m);
      if filled : bool then
        w ← newWord (inputs m);
        let m := set_words (words m ++ [w]) m in
        let m := set_addingNewCard false m in
        let m := set_currentIndex (int_sub (len (words m)) 1) m in
        let m := set_inputs (map Reset (inputs m)) m in
        let m := set_focusIndex 0 m in
        Some (route_to_inputs (KeyMsgM k) m)
      else Some (route_to_inputs (KeyMsgM k) m)
  | _ => Some (route_to_inputs (KeyMsgM k) m)
  end.

(** [case ExampleMsg:] the merge of a fetched example, in either mode. *)
Definition Update_example (m : model) (e : ExampleMsg) : option (model * Cmd) :=
  let m := set_loadingExample false m in
  match Error e with
  | Some err =>
      ws ← set_Example (words m) (Index e) ("Error: " +:+ err);
      Some (set_words ws m, CmdNil)
  | None =>
      ws ← set_Example (words m) (Index e) (Example e);
      Some (set_words ws m, CmdNil)
  end.

(** [switch msg.String()] of the normal navigation state. *)
Definition Update_browsing (m : model) (k : KeyMsg) : option (model * Cmd) :=
  let s := KeyMsg_String k in
  if bool_decide (s ∈ ["ctrl+c"; "q"]) then
    Some (m, CmdQuit)
  else if bool_decide (s ∈ ["right"; "l"]) then
    i ← int_rem (int_add (currentIndex m) 1) (len (words m));
    let m := set_currentIndex i m in
    let m := set_showDetails false m in
    let m := set_loadingExample false m in
    Some (m, CmdNil)
  else if bool_decide (s ∈ ["left"; "h"]) then
    i ← int_rem (int_add (int_sub (currentIndex m) 1) (len (words m)))
                (len (words m));
    let m := set_currentIndex i m in
    let m := set_showDetails false m in
    let m := set_loadingExample false m in
    Some (m, CmdNil)
  else if bool_decide (s ∈ [" "; "enter"]) then
    let m := set_showDetails (negb (showDetails m)) m in
    if showDetails m then
      let m := set_loadingExample true m in
      w ← index (words m) (currentIndex m);
      Some (m, CmdFetch w (currentIndex m))
    else
      let m := set_loadingExample false m in
      Some (m, CmdNil)
  else if bool_decide (s = "a") then
    let m := set_addingNewCard true m in
    let m := set_focusIndex 0 m in
    let m := set_inputs (focus_only 0 (inputs m)) m in
    Some (m, CmdNil)
  else Some (m, CmdNil).

(** [func (m model) Update(msg tea.Msg) (tea.Model, tea.Cmd)].  The adding
    branch returns for key messages only; every other message reaches the
    [ExampleMsg] switch and then the navigation switch. *)
Definition Update (m : model) (msg : Msg) : option (model * Cmd) :=
  match msg with
  | KeyMsgM k =>
      if addingNewCard m then Update_adding m k else Update_browsing m k
  | ExampleMsgM e => Update_example m e
  | OtherMsg => Some (m, CmdNil)
  end.

End Program.

(** ** A reference widget

    A line edited at its end: typed text is appended up to the character
    limit, backspace removes the last character, every other key (Enter
    among them) leaves the text alone, and a blurred line ignores all
    input.  It shows that the interface above can be met, and it is the
    widget the concrete runs below are computed with. *)
Record Line := {
  text : string;
  focused : bool;
  placeholder : string;
  prompt : string;
  charLimit : Z;
}.

Definition Line_new : Line :=
  {| text := ""; focused := false; placeholder := ""; prompt := "> ";
     charLimit := 0 |}.

Definition Line_configure (p q : string) (c : Z) (t : Line) : Line :=
  {| text := text t; focused := focused t; placeholder := p; prompt := q;
     charLimit := c |}.

Definition Line_with_text (s : string) (t : Line) : Line :=
  {| text := s; focused := focused t; placeholder := placeholder t;
     prompt := prompt t; charLimit := charLimit t |}.

Definition Line_with_focus (b : bool) (t : Line) : Line :=
  {| text := text t; focused := b; placeholder := placeholder t;
     prompt := prompt t; charLimit := charLimit t |}.

Definition Line_type (s : string) (t : Line) : Line :=
  let new := text t +:+ s in
  if (0 <? charLimit t) && (charLimit t <? Z.of_nat (String.length new))
  then Line_with_text (substring 0 (Z.to_nat (charLimit t)) new) t
  else Line_with_text new t.

Definition Line_update (t : Line) (msg : Msg) : Line * unit :=
  if focused t then
    match msg with
    | KeyMsgM {| Type_ := KeyRunes runes |} => (Line_type runes t, tt)
    | KeyMsgM {| Type_ := KeySpace |} => (Line_type " " t, tt)
    | KeyMsgM {| Type_ := KeyBackspace |} =>
        (Line_with_text
           (substring 0 (Nat.pred (String.length (text t))) (text t)) t, tt)
    | _ => (t, tt)
    end
  else (t, tt).

#[export] Instance LineWidget : textinput.Widget.
Proof.
  refine {| textinput.Model := Line;
            textinput.Cmd := unit;
            textinput.New := Line_new;
            textinput.Configure := Line_configure;
            textinput.Value := text;
            textinput.Focus := Line_with_focus true;
            textinput.Blur := Line_with_focus false;
            textinput.Reset := Line_with_text "";
            textinput.Update := Line_update |};
    try reflexivity.
  intros t alt. unfold Line_update. destruct (focused t); reflexivity.
Defined.

(** ** main.go: the environment, the fetch command and the program loop *)

(** The process environment: the variables that are set. *)
Definition Getenv (env : gmap string string) (key : string) : string :=
  default "" (env !! key).

(** How a started process ends, when it does. *)
Inductive Stop :=
  | Quit                      (* [tea.Quit] *)
  | Panic                     (* a run-time panic of [Update] *)
  | Fatal (message : string)  (* [log.Fatal]: the message, then exit 1 *)
  | NoSuchFetch.              (* not a run: the event names no fetch *)

Inductive Run (A : Type) :=
  | Going (a : A)
  | Stopped (how : Stop).
Arguments Going {A} a.
Arguments Stopped {A} how.

Definition getAPIKey (env : gmap string string) : Run string :=
  let apiKey := Getenv env "OPENAI_API_KEY" in
  if bool_decide (apiKey = "")
  then Stopped (Fatal "OPENAI_API_KEY not set in environment variables")
  else Going apiKey.

(** [godotenv.Load()] reads the file [.env] ([None]: it cannot be read) and
    sets the variables the environment does not have yet; [initEnv] makes
    its failure fatal. *)
Definition initEnv (env : gmap string string)
    (dotenv : option (gmap string string)) : Run (gmap string string) :=
  match dotenv with
  | None => Stopped (Fatal "Error loading .env file")
  | Some file => Going (env ∪ file)
  end.

(** What the world answers to one run of the fetch command, in the order
    the command meets it: the failure of one of its five fallible calls, or
    the decoded response body with its [error.message] and the contents of
    its [choices]. *)
Inductive Reply :=
  | MarshalFails (err : error)
  | NewRequestFails (err : error)
  | DoFails (err : error)
  | ReadAllFails (err : error)
  | UnmarshalFails (err : error)
  | Response (errorMessage : string) (choices : list string).

(** [fmt.Errorf(text)] for a text without formatting verbs. *)
Definition Errorf (text : string) : error := text.

(** The closure [fetchExample(word, index)] returns, run against a reply.
    The key is read first, on every run. *)
Definition fetchExample (env : gmap string string) (word : Word) (index : Z)
    (reply : Reply) : Run ExampleMsg :=
  match getAPIKey env with
  | Stopped how => Stopped how
  | Going apiKey =>
      Going
        match reply with
        | MarshalFails err | NewRequestFails err | DoFails err
        | ReadAllFails err | UnmarshalFails err =>
            {| Index := index; Example := ""; Error := Some err |}
        | Response errorMessage choices =>
            if negb (bool_decide (errorMessage = "")) then
              {| Index := index; Example := "";
                 Error := Some (Errorf errorMessage) |}
            else
              match choices with
              | [] => {| Index := index; Example := "";
                         Error := Some (Errorf "No choices returned") |}
              | content :: _ =>
                  {| Index := index; Example := content; Error := None |}
              end
        end
  end.

Section Loop.
Context {W : textinput.Widget}.

(** The running program: the model bubbletea holds, and the fetch commands
    it has started and whose message it has not delivered yet, oldest
    first. *)
Record Program := {
  current : model;
  outstanding : list (Word * Z);
}.

(** What the event loop receives: a key, some other message, or the end of
    the [n]-th outstanding fetch with the world's reply to it. *)
Inductive Event :=
  | EvKey (k : KeyMsg)
  | EvOther
  | EvFetched (n : nat) (reply : Reply).

(** One message through [Update]; the command it returns is started. *)
Definition dispatch (p : Program) (msg : Msg) : Run Program :=
  match Update (current p) msg with
  | None => Stopped Panic
  | Some (m, CmdQuit) => Stopped Quit
  | Some (m, CmdFetch w i) =>
      Going {| current := m; outstanding := outstanding p ++ [(w, i)] |}
  | Some (m, _) => Going {| current := m; outstanding := outstanding p |}
  end.

Definition step (env : gmap string string) (p : Program) (ev : Event)
  : Run Program :=
  match ev with
  | EvKey k => dispatch p (KeyMsgM k)
  | EvOther => dispatch p OtherMsg
  | EvFetched n reply =>
      match outstanding p !! n with
      | None => Stopped NoSuchFetch
      | Some (w, i) =>
          match fetchExample env w i reply with
          | Stopped how => Stopped how
          | Going e =>
              dispatch {| current := current p;
                          outstanding := delete n (outstanding p) |}
                       (ExampleMsgM e)
          end
      end
  end.

Fixpoint run (env : gmap string string) (p : Program) (evs : list Event)
  : Run Program :=
  match evs with
  | [] => Going p
  | ev :: evs =>
      match step env p ev with
      | Going p' => run env p' evs
      | Stopped how => Stopped how
      end
  end.

(** [tea.NewProgram(initialModel())] *)
Definition start : Program :=
  {| current := initialModel; outstanding := [] |}.

(** [main]: the environment is loaded, then the loop runs on the events. *)
Definition main (env : gmap string string)
    (dotenv : option (gmap string string)) (evs : list Event) : Run Program :=
  match initEnv env dotenv with
  | Stopped how => Stopped how
  | Going env' => run env' start evs
  end.

End Loop.

(** ** Shorthands for keys *)

Definition key (t : KeyType) : KeyMsg := {| Type_ := t; Alt := false |}.
Definition typed (s : string) : KeyMsg := key (KeyRunes s).
Definition enter (alt : bool) : KeyMsg := {| Type_ := KeyEnter; Alt := alt |}.

(** ** Predicates of the statements *)

(** The keys of the three browsing operations, by what [String()] returns. *)
Definition next_key (k : KeyMsg) : Prop := KeyMsg_String k ∈ ["right"; "l"].
Definition previous_key (k : KeyMsg) : Prop := KeyMsg_String k ∈ ["left"; "h"].
Definition toggle_key (k : KeyMsg) : Prop := KeyMsg_String k ∈ [" "; "enter"].

(** A [Word] is four string headers of 16 bytes; a slice of them lies in a
    64-bit address space. *)
Definition slice_fits (ws : list Word) : Prop := 64 * len ws < 2 ^ 63.

Section Predicates.
Context {W : textinput.Widget}.

(** The deck is non-empty and the current index is one of its indices. *)
Definition index_valid (m : model) : Prop :=
  words m <> [] /\ 0 <= currentIndex m < len (words m).

(** The "next" and "previous" operations on a model, as key messages. *)
Definition next (m : model) : option model :=
  fst <$> Update m (KeyMsgM (key KeyRight)).
Definition previous (m : model) : option model :=
  fst <$> Update m (KeyMsgM (key KeyLeft)).

Fixpoint iterate (n : nat) (f : model -> option model) (m : model)
  : option model :=
  match n with
  | O => Some m
  | S n => m' ← f m; iterate n f m'
  end.

(** The save branch taken: the model it builds, before the inputs see the
    key. *)
Definition saved (m : model) (t0 t1 t2 : textinput.Model) : model :=
  let w := {| Chinese := textinput.Value t0; Pinyin := textinput.Value t1;
              Definition_ := textinput.Value t2; Example_ := "" |} in
  set_focusIndex 0
    (set_inputs (map textinput.Reset (inputs m))
       (set_currentIndex (int_sub (len (words m ++ [w])) 1)
          (set_addingNewCard false (set_words (words m ++ [w]) m)))).

(** What holds of the running program after every event: the current index
    is valid, the form has its four inputs, every outstanding fetch is for
    an index of the deck, and [loadingExample] is set only while the details
    are shown and a fetch is outstanding. *)
Definition invariant (p : Program) : Prop :=
  index_valid (current p)
  /\ length (inputs (current p)) = 4%nat
  /\ Forall (fun f => 0 <= f.2 < len (words (current p))) (outstanding p)
  /\ (loadingExample (current p) = true ->
      showDetails (current p) = true /\ outstanding p <> []).

(** The command is the one [fetchExample] builds. *)
Definition is_fetch (c : Cmd) : bool :=
  match c with CmdFetch _ _ => true | _ => false end.

End Predicates.

(** ** Concrete runs, with the reference widget *)

Definition press (t : KeyType) : Event := EvKey (key t).
Definition type (s : string) : Event := EvKey (typed s).

Definition with_key : gmap string string := {[ "OPENAI_API_KEY" := "sk-test" ]}.

(** The program after the events, from [start] ([start] itself should the
    run stop). *)
Definition state_after (evs : list Event) : @Program LineWidget :=
  match run with_key start evs with
  | Going p => p
  | Stopped _ => start
  end.

(** The add-card form opened and filled in, all four fields. *)
Definition fill_form : list Event := [
  type "a";
  type "你好"; press KeyTab;
  type "ni hao"; press KeyTab;
  type "Hello"; press KeyTab;
  type "Nǐ hǎo ma?"
].

(** The form opened with the first field left empty. *)
Definition fill_form_partly : list Event := [
  type "a"; press KeyTab; type "ni hao"; press KeyTab; type "Hello"
].

Definition fill_and_save : list Event :=
  (fill_form ++ [press KeyEnter])%list.
Definition fill_partly_and_cancel : list Event :=
  (fill_form_partly ++ [press KeyEsc])%list.
Definition retype : list Event := [type "a"; type "x"; press KeyEsc].
Definition retype_and_reopen : list Event :=
  (retype ++ [type "a"])%list.
Definition toggle_thrice : list Event :=
  [press KeySpace; press KeySpace; press KeySpace].

Definition timeout_msg : ExampleMsg :=
  {| Index := 0; Example := ""; Error := Some "timeout" |}.

(** * Properties *)

(** ** Go integers and slices *)

Lemma int_wrap_small z : - 2 ^ 63 <= z < 2 ^ 63 -> int_wrap z = z.
Proof.
  intros Hz. unfold int_wrap.
  rewrite Z.mod_small by lia. lia.
Qed.

Lemma len_nonneg {A} (s : list A) : 0 <= len s.
Proof. unfold len. lia. Qed.

Lemma len_app_one {A} (s : list A) x : len (s ++ [x]) = len s + 1.
Proof. unfold len. rewrite length_app. simpl. lia. Qed.

Lemma index_Some {A} (s : list A) i :
  0 <= i < len s -> exists x, index s i = Some x /\ s !! Z.to_nat i = Some x.
Proof.
  intros Hi. unfold index.
  destruct (Z.leb_spec 0 i); [|lia]. destruct (Z.ltb_spec i (len s)); [|lia].
  simpl. destruct (lookup_lt_is_Some_2 s (Z.to_nat i)) as [x Hx].
  - unfold len in Hi. lia.
  - eauto.
Qed.

Lemma index_inv {A} (s : list A) i x :
  index s i = Some x -> 0 <= i < len s /\ s !! Z.to_nat i = Some x.
Proof.
  unfold index.
  destruct (Z.leb_spec 0 i); destruct (Z.ltb_spec i (len s)); simpl;
    intros; try discriminate; auto with lia.
Qed.

(** ** The branches of [Update], one equation each *)

Section Properties.
Context {W : textinput.Widget}.

Ltac key_cases H :=
  unfold next_key, previous_key, toggle_key in H;
  repeat (rewrite elem_of_cons in H; destruct H as [H|H]);
  [..|by apply elem_of_nil in H].

Lemma Update_next m k :
  addingNewCard m = false -> next_key k ->
  Update m (KeyMsgM k) =
    i ← int_rem (int_add (currentIndex m) 1) (len (words m));
    Some (set_loadingExample false
            (set_showDetails false (set_currentIndex i m)), CmdNil).
Proof.
  intros Hb Hk. unfold Update, Update_browsing. rewrite Hb.
  key_cases Hk; rewrite Hk; reflexivity.
Qed.

Lemma Update_previous m k :
  addingNewCard m = false -> previous_key k ->
  Update m (KeyMsgM k) =
    i ← int_rem (int_add (int_sub (currentIndex m) 1) (len (words m)))
                (len (words m));
    Some (set_loadingExample false
            (set_showDetails false (set_currentIndex i m)), CmdNil).
Proof.
  intros Hb Hk. unfold Update, Update_browsing. rewrite Hb.
  key_cases Hk; rewrite Hk; reflexivity.
Qed.

Lemma Update_toggle m k :
  addingNewCard m = false -> toggle_key k ->
  Update m (KeyMsgM k) =
    if showDetails m then
      Some (set_loadingExample false (set_showDetails false m), CmdNil)
    else
      w ← index (words m) (currentIndex m);
      Some (set_loadingExample true (set_showDetails true m),
            CmdFetch w (currentIndex m)).
Proof.
  intros Hb Hk. unfold Update, Update_browsing. rewrite Hb.
  key_cases Hk; rewrite Hk; simpl; destruct (showDetails m); reflexivity.
Qed.

(** In range, the two index computations are the mathematical ones. *)
Lemma next_index i n :
  0 <= i < n -> n < 2 ^ 63 ->
  int_rem (int_add i 1) n = Some ((i + 1) mod n).
Proof.
  intros Hi Hn. unfold int_rem, int_add.
  rewrite int_wrap_small by lia.
  destruct (Z.eqb_spec n 0); [lia|].
  by rewrite Z.rem_mod_nonneg by lia.
Qed.

Lemma previous_index i n :
  0 <= i < n -> 2 * n < 2 ^ 63 ->
  int_rem (int_add (int_sub i 1) n) n = Some ((i - 1) mod n).
Proof.
  intros Hi Hn. unfold int_rem, int_add, int_sub.
  rewrite (int_wrap_small (i - 1)) by lia.
  rewrite int_wrap_small by lia.
  destruct (Z.eqb_spec n 0); [lia|].
  rewrite Z.rem_mod_nonneg by lia.
  f_equal. replace (i - 1 + n) with (i - 1 + 1 * n) by lia.
  apply Z.mod_add. lia.
Qed.

(** ** Navigation *)

Lemma next_ok m :
  addingNewCard m = false -> 0 <= currentIndex m < len (words m) ->
  slice_fits (words m) ->
  next m = Some (set_loadingExample false (set_showDetails false
             (set_currentIndex ((currentIndex m + 1) mod len (words m)) m))).
Proof.
  intros Hb Hi Hfit. unfold slice_fits in Hfit. unfold next.
  rewrite Update_next by (done || by left).
  rewrite next_index by lia. reflexivity.
Qed.

Lemma previous_ok m :
  addingNewCard m = false -> 0 <= currentIndex m < len (words m) ->
  slice_fits (words m) ->
  previous m = Some (set_loadingExample false (set_showDetails false
             (set_currentIndex ((currentIndex m - 1) mod len (words m)) m))).
Proof.
  intros Hb Hi Hfit. unfold slice_fits in Hfit. unfold previous.
  rewrite Update_previous by (done || by left).
  rewrite previous_index by lia. reflexivity.
Qed.

Lemma iterate_next n : forall m,
  addingNewCard m = false -> 0 <= currentIndex m < len (words m) ->
  slice_fits (words m) ->
  exists m', iterate n next m = Some m'
    /\ currentIndex m' = (currentIndex m + Z.of_nat n) mod len (words m)
    /\ words m' = words m /\ addingNewCard m' = false.
Proof.
  induction n as [|n IH]; intros m Hb Hi Hfit.
  - exists m. simpl. rewrite Z.add_0_r, Z.mod_small by lia. done.
  - simpl. rewrite next_ok by done. simpl.
    pose proof (Z.mod_pos_bound (currentIndex m + 1) (len (words m))) as Hr.
    edestruct IH as (m' & -> & Hidx & Hws & Hb'); [| |exact Hfit|]; simpl; [done|lia|].
    simpl in *. exists m'. repeat split; try done.
    rewrite Hidx, Zplus_mod_idemp_l. f_equal. lia.
Qed.

(** C6. In Browsing mode, for every non-empty deck (of a size a slice can
    have) and every current index in bounds: "next" applied [len(words)]
    times brings the current index back to where it was, "previous" after
    "next" restores it, and so does "next" after "previous". *)
Theorem navigation_cyclic m :
  addingNewCard m = false -> index_valid m -> slice_fits (words m) ->
  (exists m', iterate (length (words m)) next m = Some m'
      /\ currentIndex m' = currentIndex m)
  /\ (exists m1 m2, next m = Some m1 /\ previous m1 = Some m2
      /\ currentIndex m2 = currentIndex m)
  /\ (exists m1 m2, previous m = Some m1 /\ next m1 = Some m2
      /\ currentIndex m2 = currentIndex m).
Proof.
  intros Hb [_ Hi] Hfit.
  pose proof (Z.mod_pos_bound (currentIndex m + 1) (len (words m))) as Hn.
  pose proof (Z.mod_pos_bound (currentIndex m - 1) (len (words m))) as Hp.
  split; [|split].
  - destruct (iterate_next (length (words m)) m) as (m' & Hm' & Hidx & _);
      try done.
    exists m'. split; [done|]. rewrite Hidx. fold (len (words m)).
    rewrite <- (Z.mul_1_l (len (words m))) at 1.
    rewrite Z.mod_add, Z.mod_small by lia. done.
  - rewrite next_ok by done. eexists; eexists. split; [done|].
    rewrite previous_ok; simpl; [|done|lia|done].
    split; [done|]. simpl.
    rewrite Zminus_mod_idemp_l.
    replace (currentIndex m + 1 - 1) with (currentIndex m) by lia.
    apply Z.mod_small. lia.
  - rewrite previous_ok by done. eexists; eexists. split; [done|].
    rewrite next_ok; simpl; [|done|lia|done].
    split; [done|]. simpl.
    rewrite Zplus_mod_idemp_l.
    replace (currentIndex m - 1 + 1) with (currentIndex m) by lia.
    apply Z.mod_small. lia.
Qed.

(** ** The detail toggle *)

(** C10. In Browsing mode with the details hidden, the toggle key always
    sets [loadingExample], shows the details and returns the fetch command
    for the current card and index, whatever that card's example field
    holds: nothing is reused. *)
Theorem toggle_always_fetches m k w :
  addingNewCard m = false -> toggle_key k -> showDetails m = false ->
  index (words m) (currentIndex m) = Some w ->
  exists m', Update m (KeyMsgM k) = Some (m', CmdFetch w (currentIndex m))
    /\ loadingExample m' = true /\ showDetails m' = true
    /\ words m' = words m /\ currentIndex m' = currentIndex m.
Proof.
  intros Hb Hk Hs Hw. rewrite Update_toggle by done. rewrite Hs, Hw. simpl.
  eexists. split; [reflexivity|]. done.
Qed.

(** ** The merge of a fetched example *)

(** C2. Whatever the mode, the current index and the other flags, an
    [ExampleMsg] whose index is one of the deck's clears [loadingExample]
    and writes the example field of the card at that index: the text
    "Error: " followed by the error when the message has one, the message's
    example otherwise.  The card's other fields, every other card, and the
    rest of the model stay as they were, and no command is returned. *)
Theorem fetch_result_merge m e :
  0 <= Index e < len (words m) ->
  exists m' w w',
    Update m (ExampleMsgM e) = Some (m', CmdNil)
    /\ loadingExample m' = false
    /\ words m !! Z.to_nat (Index e) = Some w
    /\ words m' !! Z.to_nat (Index e) = Some w'
    /\ (forall err, Error e = Some err -> Example_ w' = "Error: " +:+ err)
    /\ (Error e = None -> Example_ w' = Example e)
    /\ Pinyin w' = Pinyin w /\ Chinese w' = Chinese w
    /\ Definition_ w' = Definition_ w
    /\ (forall j, j <> Z.to_nat (Index e) -> words m' !! j = words m !! j)
    /\ length (words m') = length (words m)
    /\ currentIndex m' = currentIndex m /\ showDetails m' = showDetails m
    /\ addingNewCard m' = addingNewCard m /\ inputs m' = inputs m
    /\ focusIndex m' = focusIndex m.
Proof.
  intros Hi. destruct (index_Some _ _ Hi) as (w & Hw & Hl).
  assert (Z.to_nat (Index e) < length (words m))%nat as Hlt
    by (by apply lookup_lt_Some in Hl).
  unfold Update, Update_example, set_Example. simpl. rewrite Hw.
  destruct (Error e) as [err|] eqn:He; simpl;
    eexists; exists w; eexists;
    (split; [reflexivity|]); simpl;
    rewrite list_lookup_insert_eq by done;
    repeat split; try done;
    try (intros; simplify_eq; done);
    try (intros; by rewrite list_lookup_insert_ne by done);
    try apply length_insert.
Qed.

(** ** The add-card form *)

Lemma Value_focus_only j ins :
  map textinput.Value (focus_only j ins) = map textinput.Value ins.
Proof.
  unfold focus_only. apply list_eq. intros i.
  rewrite !list_lookup_fmap, list_lookup_imap.
  destruct (ins !! i) as [t|]; simpl; [|done].
  destruct (Z.of_nat i =? j);
    by rewrite ?textinput.Value_Focus, ?textinput.Value_Blur.
Qed.

Lemma Value_Reset_all ins :
  map textinput.Value (map textinput.Reset ins) = map (fun _ => "") ins.
Proof.
  rewrite map_map. apply map_ext. intros t. apply textinput.Value_Reset.
Qed.

Lemma Value_Update_enter_all alt ins :
  map textinput.Value
    (map (fun t => (textinput.Update t (KeyMsgM (enter alt))).1) ins)
  = map textinput.Value ins.
Proof.
  rewrite map_map. apply map_ext. intros t.
  apply textinput.Value_Update_Enter.
Qed.

Lemma Update_save m alt t0 t1 t2 t3 :
  addingNewCard m = true -> inputs m = [t0; t1; t2; t3] ->
  textinput.Value t0 <> "" -> textinput.Value t1 <> "" ->
  textinput.Value t2 <> "" ->
  Update m (KeyMsgM (enter alt))
  = Some (route_to_inputs (KeyMsgM (enter alt)) (saved m t0 t1 t2)).
Proof.
  intros Ha Hin H0 H1 H2. unfold Update, Update_adding. rewrite Ha. simpl.
  unfold required_filled, newWord. rewrite Hin. simpl.
  rewrite !bool_decide_eq_false_2 by done. simpl.
  unfold saved. by rewrite Hin.
Qed.

Lemma Update_save_refused m alt t0 t1 t2 t3 :
  addingNewCard m = true -> inputs m = [t0; t1; t2; t3] ->
  textinput.Value t0 = "" \/ textinput.Value t1 = ""
  \/ textinput.Value t2 = "" ->
  Update m (KeyMsgM (enter alt))
  = Some (route_to_inputs (KeyMsgM (enter alt)) m).
Proof.
  intros Ha Hin He. unfold Update, Update_adding. rewrite Ha. simpl.
  unfold required_filled. rewrite Hin. simpl.
  destruct (decide (textinput.Value t0 = "")) as [E0|N0];
    [by rewrite bool_decide_eq_true_2 by done|].
  rewrite (bool_decide_eq_false_2 _ N0).
  destruct (decide (textinput.Value t1 = "")) as [E1|N1];
    [by rewrite bool_decide_eq_true_2 by done|].
  rewrite (bool_decide_eq_false_2 _ N1).
  destruct (decide (textinput.Value t2 = "")) as [E2|N2];
    [by rewrite bool_decide_eq_true_2 by done|].
  by destruct He as [?|[?|?]].
Qed.

(** C4. In Adding mode, Enter with the three required buffers non-empty
    makes the deck one card longer, moves the current index to the new last
    card, returns to Browsing, and leaves the four buffers empty and the
    focus index at 0. *)
Theorem save_complete m alt t0 t1 t2 t3 :
  addingNewCard m = true -> inputs m = [t0; t1; t2; t3] ->
  textinput.Value t0 <> "" -> textinput.Value t1 <> "" ->
  textinput.Value t2 <> "" -> slice_fits (words m) ->
  exists m' c,
    Update m (KeyMsgM (enter alt)) = Some (m', c)
    /\ len (words m') = len (words m) + 1
    /\ currentIndex m' = len (words m') - 1
    /\ addingNewCard m' = false
    /\ map textinput.Value (inputs m') = [""; ""; ""; ""]
    /\ focusIndex m' = 0.
Proof.
  intros Ha Hin H0 H1 H2 Hfit.
  rewrite (Update_save m alt t0 t1 t2 t3) by done.
  eexists; eexists. split; [reflexivity|].
  pose proof (len_nonneg (words m)). unfold slice_fits in Hfit.
  split; [|split; [|split; [|split]]].
  - simpl. apply len_app_one.
  - simpl. rewrite len_app_one. apply int_wrap_small. lia.
  - done.
  - simpl. rewrite Value_Update_enter_all, Value_Reset_all, Hin. done.
  - done.
Qed.

(** C9. In Adding mode, Enter while one of the three required buffers is
    empty changes nothing but what the inputs do with the key: the deck, the
    current index, the mode, the focus index and the buffers' contents are
    as before; [Update] does not panic and returns only the batch of the
    inputs' commands. *)
Theorem save_incomplete m alt t0 t1 t2 t3 :
  addingNewCard m = true -> inputs m = [t0; t1; t2; t3] ->
  textinput.Value t0 = "" \/ textinput.Value t1 = ""
  \/ textinput.Value t2 = "" ->
  exists m' cmds,
    Update m (KeyMsgM (enter alt)) = Some (m', CmdBatch cmds)
    /\ words m' = words m
    /\ addingNewCard m' = true
    /\ currentIndex m' = currentIndex m
    /\ focusIndex m' = focusIndex m
    /\ map textinput.Value (inputs m') = map textinput.Value (inputs m).
Proof.
  intros Ha Hin He.
  rewrite (Update_save_refused m alt t0 t1 t2 t3) by done.
  eexists; eexists. split; [reflexivity|].
  repeat split; try done.
  simpl. apply Value_Update_enter_all.
Qed.

(** C8, as the code has it. Only a successful save resets the form.
    Entering Adding mode sets the focus index to 0 and keeps what the
    buffers hold; cancelling keeps the buffers and the focus index; a
    successful save empties the four buffers and sets the focus index to
    0. *)
Theorem form_reset_only_on_save m :
  (forall k, addingNewCard m = false -> KeyMsg_String k = "a" ->
     exists m', Update m (KeyMsgM k) = Some (m', CmdNil)
       /\ addingNewCard m' = true /\ focusIndex m' = 0
       /\ map textinput.Value (inputs m') = map textinput.Value (inputs m))
  /\ (forall k, addingNewCard m = true ->
        Type_ k = KeyEsc \/ Type_ k = KeyCtrlC ->
        exists m', Update m (KeyMsgM k) = Some (m', CmdNil)
          /\ addingNewCard m' = false /\ focusIndex m' = focusIndex m
          /\ inputs m' = inputs m)
  /\ (forall alt t0 t1 t2 t3,
        addingNewCard m = true -> inputs m = [t0; t1; t2; t3] ->
        textinput.Value t0 <> "" -> textinput.Value t1 <> "" ->
        textinput.Value t2 <> "" ->
        exists m' c, Update m (KeyMsgM (enter alt)) = Some (m', c)
          /\ addingNewCard m' = false /\ focusIndex m' = 0
          /\ map textinput.Value (inputs m') = [""; ""; ""; ""]).
Proof.
  split; [|split].
  - intros k Hb Hk. unfold Update, Update_browsing. rewrite Hb, Hk. simpl.
    eexists. split; [reflexivity|]. simpl.
    repeat split. apply Value_focus_only.
  - intros k Ha Hk. unfold Update, Update_adding. rewrite Ha.
    destruct Hk as [-> | ->]; eexists; (split; [reflexivity|]); done.
  - intros alt t0 t1 t2 t3 Ha Hin H0 H1 H2.
    rewrite (Update_save m alt t0 t1 t2 t3) by done.
    eexists; eexists. split; [reflexivity|].
    split; [done|]. split; [done|].
    simpl. rewrite Value_Update_enter_all, Value_Reset_all, Hin. done.
Qed.

(** ** The invariant of the running program *)

Ltac Update_cases H :=
  unfold Update, Update_adding, Update_browsing, Update_example,
    route_to_inputs, set_Example in H;
  repeat (progress (repeat case_match; simplify_option_eq)).

Lemma Update_words_grow m msg m' c :
  Update m msg = Some (m', c) -> len (words m) <= len (words m').
Proof.
  intros H. Update_cases H; simpl; rewrite ?len_app_one; try lia.
  all: unfold len; rewrite ?length_insert; try lia.
Qed.

Lemma Update_inputs_length m msg m' c :
  Update m msg = Some (m', c) -> length (inputs m') = length (inputs m).
Proof.
  intros H. Update_cases H; simpl; unfold focus_only;
    by rewrite ?length_map, ?length_imap.
Qed.

Lemma index_valid_range m :
  index_valid m <-> 0 <= currentIndex m < len (words m).
Proof.
  unfold index_valid. split; [tauto|]. intros H. split; [|done].
  intros E. rewrite E in H. unfold len in H. simpl in H. lia.
Qed.

Lemma Update_index_valid m msg m' c :
  Update m msg = Some (m', c) -> slice_fits (words m') ->
  index_valid m -> index_valid m'.
Proof.
  intros H Hfit Hv. pose proof (Update_words_grow _ _ _ _ H) as Hgrow.
  rewrite index_valid_range in *. unfold slice_fits in Hfit.
  Update_cases H; simpl in *; try done.
  - unfold int_sub. rewrite len_app_one in *.
    rewrite int_wrap_small by lia. lia.
  - rewrite next_index in * by lia. simplify_eq.
    apply Z.mod_pos_bound. lia.
  - rewrite previous_index in * by lia. simplify_eq.
    apply Z.mod_pos_bound. lia.
  - unfold len in *. rewrite length_insert in *. lia.
  - unfold len in *. rewrite length_insert in *. lia.
Qed.

Lemma Update_loading m msg m' c :
  Update m msg = Some (m', c) ->
  (loadingExample m = true -> showDetails m = true) ->
  (loadingExample m' = true -> showDetails m' = true)
  /\ match c with
     | CmdFetch w i => loadingExample m' = true /\ index (words m') i = Some w
     | _ => loadingExample m' = true ->
            loadingExample m = true /\ forall e, msg <> ExampleMsgM e
     end.
Proof.
  intros H Hl. Update_cases H; simpl in *; try done.
  all: try (split; [done|]; intros Ht; split; [done|]; intros; done).
Qed.

Lemma Update_fetch_free m msg m' c :
  Update m msg = Some (m', c) ->
  loadingExample m = true -> showDetails m = true -> is_fetch c = false.
Proof.
  intros H Hl Hs. Update_cases H; simpl in *; try done.
  by destruct (showDetails m).
Qed.

Lemma fetchExample_Index env w i reply e :
  fetchExample env w i reply = Going e -> Index e = i.
Proof.
  unfold fetchExample. destruct (getAPIKey env); [|done].
  intros [= <-]. destruct reply; try done.
  destruct (negb _); [done|]. by destruct choices.
Qed.

Lemma dispatch_inv p msg p' :
  dispatch p msg = Going p' ->
  exists c, Update (current p) msg = Some (current p', c)
    /\ outstanding p' =
       match c with
       | CmdFetch w i => (outstanding p ++ [(w, i)])%list
       | _ => outstanding p
       end.
Proof.
  unfold dispatch. intros H.
  destruct (Update (current p) msg) as [[m c]|]; [|done].
  exists c. destruct c; simplify_eq; done.
Qed.

Lemma dispatch_invariant p msg p' :
  dispatch p msg = Going p' -> slice_fits (words (current p')) ->
  index_valid (current p) ->
  length (inputs (current p)) = 4%nat ->
  Forall (fun f => 0 <= f.2 < len (words (current p))) (outstanding p) ->
  (loadingExample (current p) = true -> showDetails (current p) = true) ->
  (loadingExample (current p) = true -> (forall e, msg <> ExampleMsgM e) ->
     outstanding p <> []) ->
  invariant p'.
Proof.
  intros H Hfit Hv Hin Hout Hshow Hload.
  destruct (dispatch_inv _ _ _ H) as (c & HU & Ho).
  pose proof (Update_words_grow _ _ _ _ HU) as Hgrow.
  pose proof (Update_loading _ _ _ _ HU Hshow) as [Hshow' Hc].
  assert (Forall (fun f => 0 <= f.2 < len (words (current p')))
            (outstanding p)) as Hout'.
  { eapply Forall_impl; [exact Hout|]. simpl. intros; lia. }
  split; [by eapply Update_index_valid|].
  split; [by rewrite (Update_inputs_length _ _ _ _ HU)|].
  destruct c; rewrite Ho.
  1, 2, 4: split; [done|]; intros Hl; split; [by auto|];
    destruct (Hc Hl); by auto.
  destruct Hc as [Hl Hw]. apply index_inv in Hw as [Hr _].
  split; [|split; [by auto|]].
  - apply Forall_app. split; [done|]. by apply Forall_singleton.
  - intros E. by apply app_eq_nil in E as [_ ?].
Qed.

Lemma step_invariant env p ev p' :
  step env p ev = Going p' -> slice_fits (words (current p')) ->
  invariant p -> invariant p'.
Proof.
  intros H Hfit (Hv & Hin & Hout & Hload).
  destruct ev as [k| |n reply]; simpl in H.
  - eapply dispatch_invariant; try done; intros Hl; intros;
      by destruct (Hload Hl).
  - eapply dispatch_invariant; try done; intros Hl; intros;
      by destruct (Hload Hl).
  - destruct (outstanding p !! n) as [[w i]|] eqn:Hn; [|done].
    destruct (fetchExample env w i reply) as [e|] eqn:He; [|done].
    eapply dispatch_invariant; try done; simpl.
    + by apply Forall_delete.
    + intros Hl. by destruct (Hload Hl).
    + intros _ Hne. by destruct (Hne e).
Qed.

Lemma step_words_grow env p ev p' :
  step env p ev = Going p' ->
  len (words (current p)) <= len (words (current p')).
Proof.
  intros H. destruct ev as [k| |n reply]; simpl in H.
  - apply dispatch_inv in H as (c & HU & _). by eapply Update_words_grow.
  - apply dispatch_inv in H as (c & HU & _). by eapply Update_words_grow.
  - destruct (outstanding p !! n) as [[w i]|]; [|done].
    destruct (fetchExample env w i reply); [|done].
    apply dispatch_inv in H as (c & HU & _).
    by apply Update_words_grow in HU.
Qed.

Lemma run_words_grow env evs : forall p p',
  run env p evs = Going p' ->
  len (words (current p)) <= len (words (current p')).
Proof.
  induction evs as [|ev evs IH]; intros p p' H; simpl in H.
  - by simplify_eq.
  - destruct (step env p ev) as [p1|] eqn:Hs; [|done].
    apply step_words_grow in Hs. apply IH in H. lia.
Qed.

Lemma run_invariant env evs : forall p p',
  run env p evs = Going p' -> slice_fits (words (current p')) ->
  invariant p -> invariant p'.
Proof.
  induction evs as [|ev evs IH]; intros p p' H Hfit Hinv; simpl in H.
  - by simplify_eq.
  - destruct (step env p ev) as [p1|] eqn:Hs; [|done].
    apply (IH p1 p' H Hfit). eapply step_invariant; [done| |done].
    apply run_words_grow in H. unfold slice_fits in *. lia.
Qed.

Lemma start_invariant : invariant start.
Proof.
  unfold invariant, index_valid. simpl. repeat split; try done.
Qed.

(** With a valid index and the four inputs, no key makes [Update] panic. *)
Lemma Update_key_total m k :
  index_valid m -> length (inputs m) = 4%nat ->
  exists m' c, Update m (KeyMsgM k) = Some (m', c).
Proof.
  intros Hv Hin. apply index_valid_range in Hv.
  destruct (index_Some _ _ Hv) as (w & Hw & _).
  assert ((len (words m) =? 0) = false) as Hz by lia.
  destruct (inputs m) as [|t0 [|t1 [|t2 [|t3 [|]]]]] eqn:Hi; try done.
  unfold Update, Update_adding, Update_browsing, required_filled, newWord,
    int_rem.
  rewrite Hi, Hz. simpl. rewrite Hw. simpl.
  repeat (case_match; simpl; eauto).
Qed.

(** C5. The initial model has a non-empty deck and a valid current index;
    every message [Update] handles keeps them so, as long as the deck is of
    a size a slice can have; hence after any sequence of keys, other
    messages and fetch completions the read of the deck at the current
    index is in bounds, and no key makes [Update] panic, by a division by
    zero or otherwise. *)
Theorem index_valid_invariant :
  index_valid initialModel
  /\ (forall m msg m' c,
        index_valid m -> Update m msg = Some (m', c) ->
        slice_fits (words m') -> index_valid m')
  /\ (forall env evs p,
        run env start evs = Going p -> slice_fits (words (current p)) ->
        index_valid (current p)
        /\ (exists w,
              index (words (current p)) (currentIndex (current p)) = Some w)
        /\ forall k, exists m' c,
             Update (current p) (KeyMsgM k) = Some (m', c)).
Proof.
  split; [|split].
  - apply start_invariant.
  - intros m msg m' c Hv HU Hfit. by eapply Update_index_valid.
  - intros env evs p Hrun Hfit.
    destruct (run_invariant _ _ _ _ Hrun Hfit start_invariant)
      as (Hv & Hin & _).
    split; [done|]. split.
    + apply index_valid_range in Hv.
      destruct (index_Some _ _ Hv) as (w & Hw & _). eauto.
    + intros k. by apply Update_key_total.
Qed.

(** The message of a finished fetch always finds its card: [Update] merges
    it without panicking. *)
Lemma delivered_index_in_range env evs p n w i reply e :
  run env start evs = Going p -> slice_fits (words (current p)) ->
  outstanding p !! n = Some (w, i) ->
  fetchExample env w i reply = Going e ->
  0 <= Index e < len (words (current p)).
Proof.
  intros Hrun Hfit Hn He.
  destruct (run_invariant _ _ _ _ Hrun Hfit start_invariant)
    as (_ & _ & Hout & _).
  rewrite (fetchExample_Index _ _ _ _ _ He).
  by apply (Forall_lookup_1 _ _ _ _ Hout Hn).
Qed.

(** C3, as the code has it. After any sequence of events, while
    [loadingExample] is set a fetch is outstanding and no event starts
    another one.  (The flag is cleared by navigation and by hiding the
    details while the fetch is still outstanding, and then the next toggle
    starts a second fetch.) *)
Theorem no_fetch_while_loading env evs p :
  run env start evs = Going p -> slice_fits (words (current p)) ->
  loadingExample (current p) = true ->
  outstanding p <> []
  /\ forall ev p', step env p ev = Going p' ->
       (length (outstanding p') <= length (outstanding p))%nat.
Proof.
  intros Hrun Hfit Hl.
  destruct (run_invariant _ _ _ _ Hrun Hfit start_invariant)
    as (_ & _ & _ & Hload).
  destruct (Hload Hl) as [Hs Hne]. split; [done|].
  intros ev p' Hstep.
  assert (forall q msg, current q = current p -> dispatch q msg = Going p' ->
            outstanding p' = outstanding q) as Hd.
  { intros q msg Hq Hq'. apply dispatch_inv in Hq' as (c & HU & ->).
    rewrite Hq in HU. apply Update_fetch_free in HU; [|done..].
    by destruct c. }
  destruct ev as [k| |n reply]; simpl in Hstep.
  - by rewrite (Hd _ _ eq_refl Hstep).
  - by rewrite (Hd _ _ eq_refl Hstep).
  - destruct (outstanding p !! n) as [[w i]|]; [|done].
    destruct (fetchExample env w i reply); [|done].
    apply Hd in Hstep; [|done]. rewrite Hstep. simpl.
    apply sublist_length, sublist_delete.
Qed.

(** ** The API key *)

(** C7, as the code has it. When the environment [initEnv] leaves has no
    API key, [main] still starts the loop on the initial model, and the
    process is ended by [log.Fatal] when a fetch command runs: no run of
    the command returns an [ExampleMsg], so the missing key is never a
    per-call error. *)
Theorem missing_key_fatal_at_fetch env dotenv env' :
  initEnv env dotenv = Going env' ->
  Getenv env' "OPENAI_API_KEY" = "" ->
  main env dotenv [] = Going start
  /\ (forall w i reply,
        fetchExample env' w i reply
        = Stopped (Fatal "OPENAI_API_KEY not set in environment variables"))
  /\ (forall p n f reply,
        outstanding p !! n = Some f ->
        step env' p (EvFetched n reply)
        = Stopped (Fatal "OPENAI_API_KEY not set in environment variables")).
Proof.
  intros Hinit Hkey.
  assert (forall w i reply, fetchExample env' w i reply
    = Stopped (Fatal "OPENAI_API_KEY not set in environment variables"))
    as Hf.
  { intros w i reply. unfold fetchExample, getAPIKey. by rewrite Hkey. }
  split; [|split].
  - unfold main. by rewrite Hinit.
  - done.
  - intros p n [w i] reply Hn. simpl. by rewrite Hn, Hf.
Qed.

End Properties.

(** * The statements at concrete runs *)

Ltac evaluate := vm_compute; reflexivity.

(** ** Navigation and the toggle *)

Lemma navigation_cyclic_witness :
  (exists m', iterate 10 next (@initialModel LineWidget) = Some m'
      /\ currentIndex m' = 0)
  /\ (exists m1 m2, next (@initialModel LineWidget) = Some m1
      /\ previous m1 = Some m2 /\ currentIndex m2 = 0)
  /\ (exists m1 m2, previous (@initialModel LineWidget) = Some m1
      /\ next m1 = Some m2 /\ currentIndex m2 = 0).
Proof.
  apply (navigation_cyclic (@initialModel LineWidget)).
  - evaluate.
  - split; [discriminate|]. vm_compute. split; [discriminate|evaluate].
  - evaluate.
Defined.

(** The third seed card has an example already; the toggle fetches one all
    the same. *)
Lemma toggle_always_fetches_witness :
  exists m',
    Update (current (state_after [press KeyRight; press KeyRight]))
           (KeyMsgM (key KeySpace))
    = Some (m', CmdFetch {| Pinyin := "zǎo"; Chinese := "早";
                             Definition_ := "Morning";
                             Example_ := "Zǎo, good morning!" |} 2)
    /\ loadingExample m' = true /\ showDetails m' = true
    /\ words m' = ExampleWords /\ currentIndex m' = 2.
Proof.
  apply (toggle_always_fetches
           (current (state_after [press KeyRight; press KeyRight]))
           (key KeySpace)).
  - evaluate.
  - left.
  - evaluate.
  - evaluate.
Defined.

(** ** The merge *)

Lemma fetch_result_merge_witness :
  exists m' w w',
    Update (@initialModel LineWidget) (ExampleMsgM timeout_msg)
      = Some (m', CmdNil)
    /\ loadingExample m' = false
    /\ ExampleWords !! 0%nat = Some w
    /\ words m' !! 0%nat = Some w'
    /\ (forall err, Some "timeout" = Some err ->
          Example_ w' = "Error: " +:+ err)
    /\ (Some "timeout" = None -> Example_ w' = "")
    /\ Pinyin w' = Pinyin w /\ Chinese w' = Chinese w
    /\ Definition_ w' = Definition_ w
    /\ (forall j, j <> 0%nat -> words m' !! j = ExampleWords !! j)
    /\ length (words m') = 10%nat
    /\ currentIndex m' = 0 /\ showDetails m' = false
    /\ addingNewCard m' = false
    /\ inputs m' = inputs (@initialModel LineWidget)
    /\ focusIndex m' = 0.
Proof.
  apply (fetch_result_merge (@initialModel LineWidget) timeout_msg).
  vm_compute. split; [discriminate|evaluate].
Defined.

(** ** The form *)

Lemma save_complete_witness :
  exists m' c,
    Update (current (state_after fill_form)) (KeyMsgM (enter false))
      = Some (m', c)
    /\ len (words m') = 10 + 1
    /\ currentIndex m' = len (words m') - 1
    /\ addingNewCard m' = false
    /\ map text (inputs m') = [""; ""; ""; ""]
    /\ focusIndex m' = 0.
Proof.
  eapply (save_complete (current (state_after fill_form)) false).
  - evaluate.
  - evaluate.
  - discriminate.
  - discriminate.
  - discriminate.
  - evaluate.
Defined.

Lemma save_incomplete_witness :
  exists m' cmds,
    Update (current (state_after fill_form_partly)) (KeyMsgM (enter false))
      = Some (m', CmdBatch cmds)
    /\ words m' = ExampleWords
    /\ addingNewCard m' = true
    /\ currentIndex m' = 0
    /\ focusIndex m' = 2
    /\ map text (inputs m') = [""; "ni hao"; "Hello"; ""].
Proof.
  eapply (save_incomplete (current (state_after fill_form_partly)) false).
  - evaluate.
  - evaluate.
  - left. evaluate.
Defined.

Lemma form_reset_only_on_save_witness :
  (exists m', Update (current (state_after retype))
                (KeyMsgM (typed "a")) = Some (m', CmdNil)
     /\ addingNewCard m' = true /\ focusIndex m' = 0
     /\ map text (inputs m') = ["x"; ""; ""; ""])
  /\ (exists m', Update (current (state_after fill_form_partly))
                   (KeyMsgM (key KeyEsc)) = Some (m', CmdNil)
        /\ addingNewCard m' = false /\ focusIndex m' = 2
        /\ inputs m' = inputs (current (state_after fill_form_partly)))
  /\ (exists m' c, Update (current (state_after fill_form))
                     (KeyMsgM (enter false)) = Some (m', c)
        /\ addingNewCard m' = false /\ focusIndex m' = 0
        /\ map text (inputs m') = [""; ""; ""; ""]).
Proof.
  split; [|split].
  - apply (proj1 (form_reset_only_on_save
                    (current (state_after retype)))
             (typed "a")); evaluate.
  - apply (proj1 (proj2 (form_reset_only_on_save
                           (current (state_after fill_form_partly))))
             (key KeyEsc)); [evaluate | left; evaluate].
  - eapply (proj2 (proj2 (form_reset_only_on_save
                            (current (state_after fill_form))))
              false);
      [evaluate | evaluate | discriminate..].
Defined.

(** C8, as stated, fails. Opening the form again after typing "x" and
    cancelling finds the "x" still in the first buffer, and cancelling with
    the focus on the third field leaves the buffers filled and the focus
    index at 2. *)
Lemma form_kept_on_enter_and_cancel :
  ~ (forall evs p p',
       run with_key start evs = Going p ->
       addingNewCard (current p) = false ->
       step with_key p (type "a") = Going p' ->
       Forall (fun t => text t = "") (inputs (current p'))
       /\ focusIndex (current p') = 0)
  /\ ~ (forall evs p p',
          run with_key start evs = Going p ->
          addingNewCard (current p) = true ->
          step with_key p (press KeyEsc) = Going p' ->
          Forall (fun t => text t = "") (inputs (current p'))
          /\ focusIndex (current p') = 0).
Proof.
  split.
  - intros H.
    destruct (H retype
                (state_after retype)
                (state_after retype_and_reopen))
      as [Hall _]; [evaluate..|].
    apply Forall_inv in Hall. vm_compute in Hall. discriminate Hall.
  - intros H.
    destruct (H fill_form_partly (state_after fill_form_partly)
                (state_after fill_partly_and_cancel))
      as [_ Hf]; [evaluate..|].
    vm_compute in Hf. discriminate Hf.
Qed.

(** The spec's scenario: the details of the first card are shown, the fetch
    returns a sentence, and the card holds it; a failed request leaves the
    error's text after "Error: ". *)
Lemma fetched_example_stored :
  (exists p,
     run with_key start
       [press KeySpace; EvFetched 0 (Response "" ["你好 means hello"])]
     = Going p
     /\ Example_ <$> words (current p) !! 0%nat = Some "你好 means hello"
     /\ loadingExample (current p) = false /\ outstanding p = [])
  /\ (exists p,
        run with_key start [press KeySpace; EvFetched 0 (DoFails "timeout")]
        = Going p
        /\ Example_ <$> words (current p) !! 0%nat = Some "Error: timeout").
Proof.
  split.
  - exists (state_after
      [press KeySpace; EvFetched 0 (Response "" ["你好 means hello"])]).
    repeat split; evaluate.
  - exists (state_after [press KeySpace; EvFetched 0 (DoFails "timeout")]).
    repeat split; evaluate.
Qed.

(** C1 on the code. The form is filled in with the example "Nǐ hǎo ma?";
    Enter appends the card with an empty example. *)
Lemma save_drops_example :
  map text (inputs (current (state_after fill_form)))
    = ["你好"; "ni hao"; "Hello"; "Nǐ hǎo ma?"]
  /\ addingNewCard (current (state_after fill_form)) = true
  /\ exists p',
       step with_key (state_after fill_form) (press KeyEnter) = Going p'
       /\ last (words (current p'))
          = Some {| Pinyin := "ni hao"; Chinese := "你好";
                    Definition_ := "Hello"; Example_ := "" |}.
Proof.
  split; [evaluate|]. split; [evaluate|].
  exists (state_after fill_and_save). split; evaluate.
Qed.

(** ** The running program *)

Lemma index_valid_invariant_witness :
  index_valid (current (state_after fill_and_save))
  /\ (exists w,
        index (words (current (state_after fill_and_save)))
              (currentIndex
                 (current (state_after fill_and_save)))
        = Some w)
  /\ forall k, exists m' c,
       Update (current (state_after fill_and_save))
              (KeyMsgM k) = Some (m', c).
Proof.
  apply (proj2 (proj2 index_valid_invariant) with_key
           fill_and_save); evaluate.
Defined.

Lemma no_fetch_while_loading_witness :
  outstanding (state_after [press KeySpace]) <> []
  /\ forall ev p',
       step with_key (state_after [press KeySpace]) ev = Going p' ->
       (length (outstanding p')
        <= length (outstanding (state_after [press KeySpace])))%nat.
Proof.
  apply (no_fetch_while_loading with_key [press KeySpace]); evaluate.
Defined.

(** C3, as stated, fails. Toggle, toggle, toggle: the first fetch has not
    returned when the third key starts the second one. *)
Lemma two_fetches_outstanding :
  ~ (forall evs p,
       run (W := LineWidget) with_key start evs = Going p ->
       (length (outstanding p) <= 1)%nat).
Proof.
  intros H.
  specialize (H toggle_thrice
                (state_after toggle_thrice)).
  assert (2 <= 1)%nat as Hle by (apply H; evaluate). lia.
Qed.

(** ** The API key *)

Lemma missing_key_fatal_at_fetch_witness :
  main (W := LineWidget) ∅ (Some ∅) [] = Going start
  /\ (forall w i reply,
        fetchExample (∅ ∪ ∅) w i reply
        = Stopped (Fatal "OPENAI_API_KEY not set in environment variables"))
  /\ (forall (p : @Program LineWidget) n f reply,
        outstanding p !! n = Some f ->
        step (∅ ∪ ∅) p (EvFetched n reply)
        = Stopped (Fatal "OPENAI_API_KEY not set in environment variables")).
Proof.
  apply (missing_key_fatal_at_fetch (W := LineWidget) ∅ (Some ∅) (∅ ∪ ∅));
    evaluate.
Defined.

(** C7, as stated, fails. With a readable but empty [.env] file and no key
    in the environment the program starts and handles a key. *)
Lemma loop_entered_without_key :
  ~ (forall env dotenv evs,
       (forall env', initEnv env dotenv = Going env' ->
                     Getenv env' "OPENAI_API_KEY" = "") ->
       exists message,
         main (W := LineWidget) env dotenv evs = Stopped (Fatal message)).
Proof.
  intros H.
  destruct (H ∅ (Some ∅) [press KeyRight]) as [message Hm].
  - intros env' [= <-]. evaluate.
  - vm_compute in Hm. discriminate Hm.
Qed.

(** There the process ends at the first fetch that runs, inside the loop. *)
Lemma fatal_at_first_fetch reply :
  main (W := LineWidget) ∅ (Some ∅) [press KeySpace; EvFetched 0 reply]
  = Stopped (Fatal "OPENAI_API_KEY not set in environment variables").
Proof. evaluate. Qed.
